(** * AppProvider: the client-side state store of the task application

    A shallow embedding of [src/AppProvider.tsx]: the reducer over
    [AppState], the [api] object whose methods await one axios request and
    then dispatch one action, and the [useAppContext] accessor.

    Conventions of the embedding:
    - a JavaScript array is a [list]; [===] on strings is [String.eqb];
    - the object [state.tasks], used as a map from list id to [Task[]], is
      a [gmap string (option (list Task))]: a missing key and a key holding
      [undefined] both read as [undefined], and the reducer can store
      [undefined] under a key (optional chaining on a missing entry);
    - [reducer] reads [state.tasks[key]] among the own keys of the object.
      [reducer_js] is the same function with the read that JavaScript
      performs, which falls through to the members every object inherits
      ("constructor", "toString", ...) and makes four cases throw; the
      two agree wherever no such read happens ([reducer_js_plain]), and
      every action the API dispatches is of that kind;
    - an [async] method is a function from the store's state to a settled
      promise and the next state; [dispatch] applies [reducer] at once. *)

From stdpp Require Import gmap strings list fin_maps.
From Stdlib Require Import ZArith.

Local Open Scope string_scope.
Local Open Scope list_scope.

(** ** Domain types *)

(** Modelled from the spec: [./domain/TaskList] is imported by the source
    but its declaration is not part of it.  The spec gives a TaskList a
    string identifier and descriptive fields that are opaque to the store;
    the one descriptive field of the spec's scenario is [name]. *)
Record TaskList : Type := mkTaskList {
  tl_id : string;
  tl_name : string;
}.

(** Modelled from the spec: [./domain/Task] is imported by the source but
    its declaration is not part of it.  A Task has a string identifier and
    opaque descriptive fields; the spec's scenario uses [title]. *)
Record Task : Type := mkTask {
  task_id : string;
  task_title : string;
}.

(** [Omit<TaskList, "id">] and [Omit<Task, "id">]: the creation payloads. *)
Record TaskListData : Type := mkTaskListData { tld_name : string }.
Record TaskData : Type := mkTaskData { td_title : string }.

(** ** State *)

(** A value stored under a key of [state.tasks]: [None] is [undefined],
    [Some l] is the array [l]. *)
Abbreviation TaskSlot := (option (list Task)).

Record AppState : Type := mkAppState {
  taskLists : list TaskList;
  tasks : gmap string TaskSlot;
}.

(** [obj[key]] among the own keys of [obj]: a missing key reads as
    [undefined].  The read that also looks into the prototype is [js_read],
    further down; the two differ only on a name that is not an own key and
    that every object inherits. *)
Definition prop_read (obj : gmap string TaskSlot) (key : string) : TaskSlot :=
  match obj !! key with
  | Some v => v
  | None => None
  end.

(** [v || d] where [v] is [undefined] or an array: every array, the empty
    one included, is truthy. *)
Definition or_else (v : TaskSlot) (d : list Task) : list Task :=
  match v with
  | Some l => l
  | None => d
  end.

(** [v?.f(...)]: [undefined] short-circuits to [undefined]. *)
Definition opt_chain (v : TaskSlot) (f : list Task -> list Task) : TaskSlot :=
  match v with
  | Some l => Some (f l)
  | None => None
  end.

(** ** Actions *)

Inductive Action : Type :=
  | FETCH_TASKLISTS (payload : list TaskList)
  | GET_TASKLIST (payload : TaskList)
  | CREATE_TASKLIST (payload : TaskList)
  | UPDATE_TASKLIST (payload : TaskList)
  | DELETE_TASKLIST (payload : string)
  | FETCH_TASKS (taskListId : string) (tasks : list Task)
  | CREATE_TASK (taskListId : string) (task : Task)
  | GET_TASK (taskListId : string) (task : Task)
  | UPDATE_TASK (taskListId : string) (taskId : string) (task : Task)
  | DELETE_TASK (taskListId : string) (taskId : string).

(** ** Reducer *)

Definition reducer (state : AppState) (action : Action) : AppState :=
  match action with
  | FETCH_TASKLISTS payload =>
      {| taskLists := payload; tasks := tasks state |}
  | GET_TASKLIST payload =>
      {| taskLists :=
           if existsb (fun tl => tl_id tl =? tl_id payload) (taskLists state)
           then map (fun tl => if tl_id tl =? tl_id payload then payload else tl)
                    (taskLists state)
           else taskLists state ++ [payload];
         tasks := tasks state |}
  | CREATE_TASKLIST payload =>
      {| taskLists := taskLists state ++ [payload]; tasks := tasks state |}
  | UPDATE_TASKLIST payload =>
      {| taskLists :=
           map (fun tl => if tl_id tl =? tl_id payload then payload else tl)
               (taskLists state);
         tasks := tasks state |}
  | DELETE_TASKLIST payload =>
      {| taskLists :=
           List.filter (fun tl => negb (tl_id tl =? payload)) (taskLists state);
         tasks := tasks state |}
  | FETCH_TASKS taskListId ts =>
      {| taskLists := taskLists state;
         tasks := <[taskListId := Some ts]> (tasks state) |}
  | CREATE_TASK taskListId task =>
      {| taskLists := taskLists state;
         tasks :=
           <[taskListId :=
               Some (or_else (prop_read (tasks state) taskListId) [] ++ [task])]>
             (tasks state) |}
  | GET_TASK taskListId task =>
      {| taskLists := taskLists state;
         tasks :=
           <[taskListId :=
               Some (or_else
                       (opt_chain (prop_read (tasks state) taskListId)
                          (map (fun t => if task_id t =? task_id task
                                         then task else t)))
                       [task])]>
             (tasks state) |}
  | UPDATE_TASK taskListId taskId task =>
      {| taskLists := taskLists state;
         tasks :=
           <[taskListId :=
               opt_chain (prop_read (tasks state) taskListId)
                 (map (fun t => if task_id t =? taskId then task else t))]>
             (tasks state) |}
  | DELETE_TASK taskListId taskId =>
      {| taskLists := taskLists state;
         tasks :=
           <[taskListId :=
               opt_chain (prop_read (tasks state) taskListId)
                 (List.filter (fun t => negb (task_id t =? taskId)))]>
             (tasks state) |}
  end.

Definition initialState : AppState := {| taskLists := []; tasks := ∅ |}.

(** ** Errors, completions and promises *)

Inductive Error : Type :=
  | NetworkError
  | HTTPError (status : Z)
  | TypeError (message : string)
  | UsageError (message : string).

(** The completion of a synchronous call: a value, or a thrown error. *)
Inductive Completion (A : Type) : Type :=
  | Normal (a : A)
  | Throw (e : Error).
Arguments Normal {A} a.
Arguments Throw {A} e.

(** A settled promise. *)
Inductive Settled (A : Type) : Type :=
  | Fulfilled (a : A)
  | Rejected (e : Error).
Arguments Fulfilled {A} a.
Arguments Rejected {A} e.

(** An [async] function body run against the store: the promise it
    returns, once settled, and the state it leaves. *)
Definition Async (A : Type) : Type := AppState -> Settled A * AppState.

(** Sequencing inside an [async] body: a rejected [await] is rethrown, so
    the rest of the body does not run and the promise rejects. *)
Definition async_bind {A B} (c : Async A) (k : A -> Async B) : Async B :=
  fun s =>
    match c s with
    | (Fulfilled a, s') => k a s'
    | (Rejected e, s') => (Rejected e, s')
    end.

Notation "x <- c ;; k" := (async_bind c (fun x => k))
  (at level 100, c at next level, right associativity).

Definition await {A} (p : Settled A) : Async A := fun s => (p, s).

(** [dispatch(action)] of [useReducer(reducer, initialState)]. *)
Definition dispatch (action : Action) : Async unit :=
  fun s => (Fulfilled tt, reducer s action).

(** ** The network, as axios sees it *)

(** What comes back for one request: no response at all, or a response with
    a status and a JSON body already read at the type the reducer expects. *)
Inductive NetOutcome (D : Type) : Type :=
  | TransportFailure
  | HttpResponse (status : Z) (data : D).
Arguments TransportFailure {D}.
Arguments HttpResponse {D} status data.

(** The REST service behind [API_BASE_URL], one field per endpoint that the
    provider requests. *)
Record Network : Type := mkNetwork {
  GET_task_lists : NetOutcome (list TaskList);
  GET_task_list : string -> NetOutcome TaskList;
  POST_task_lists : TaskListData -> NetOutcome TaskList;
  PUT_task_list : string -> TaskList -> NetOutcome TaskList;
  DELETE_task_list : string -> NetOutcome unit;
  GET_tasks : string -> NetOutcome (list Task);
}.

(** Modelled from the spec: axios is an imported library.  Section 7 of the
    spec has two network failures, a transport failure and a response whose
    status is not 2xx, and both fail the call; a 2xx response resolves to
    an object whose [data] is the body. *)
Definition validateStatus (status : Z) : bool :=
  (200 <=? status)%Z && (status <? 300)%Z.

(** Modelled from the spec: the promise that [axios.get], [post], [put] or
    [delete] returns for a request with the outcome [o], by the same two
    failures. *)
Definition axios {D} (o : NetOutcome D) : Settled D :=
  match o with
  | TransportFailure => Rejected NetworkError
  | HttpResponse status data =>
      if validateStatus status then Fulfilled data
      else Rejected (HTTPError status)
  end.

(** ** The provider: API methods *)

Section AppProvider.

Variable net : Network.

Definition fetchTaskLists : Async unit :=
  data <- await (axios (GET_task_lists net)) ;;
  dispatch (FETCH_TASKLISTS data).

Definition getTaskList (id : string) : Async unit :=
  data <- await (axios (GET_task_list net id)) ;;
  dispatch (GET_TASKLIST data).

Definition createTaskList (taskList : TaskListData) : Async unit :=
  data <- await (axios (POST_task_lists net taskList)) ;;
  dispatch (CREATE_TASKLIST data).

Definition updateTaskList (id : string) (taskList : TaskList) : Async unit :=
  data <- await (axios (PUT_task_list net id taskList)) ;;
  dispatch (UPDATE_TASKLIST data).

Definition deleteTaskList (id : string) : Async unit :=
  _ <- await (axios (DELETE_task_list net id)) ;;
  dispatch (DELETE_TASKLIST id).

Definition fetchTasks (taskListId : string) : Async unit :=
  data <- await (axios (GET_tasks net taskListId)) ;;
  dispatch (FETCH_TASKS taskListId data).

End AppProvider.

(** The shape [AppContextType["api"]] declares: nine methods.  A field is
    [None] when the object held at run time has no such property. *)
Record Api : Type := mkApi {
  api_fetchTaskLists : option (Async unit);
  api_getTaskList : option (string -> Async unit);
  api_createTaskList : option (TaskListData -> Async unit);
  api_updateTaskList : option (string -> TaskList -> Async unit);
  api_deleteTaskList : option (string -> Async unit);
  api_fetchTasks : option (string -> Async unit);
  api_createTask : option (string -> TaskData -> Async unit);
  api_updateTask : option (string -> string -> Task -> Async unit);
  api_deleteTask : option (string -> string -> Async unit);
}.

(** The object literal bound to [api] in [AppProvider]: six properties. *)
Definition api (net : Network) : Api :=
  {| api_fetchTaskLists := Some (fetchTaskLists net);
     api_getTaskList := Some (getTaskList net);
     api_createTaskList := Some (createTaskList net);
     api_updateTaskList := Some (updateTaskList net);
     api_deleteTaskList := Some (deleteTaskList net);
     api_fetchTasks := Some (fetchTasks net);
     api_createTask := None;
     api_updateTask := None;
     api_deleteTask := None |}.

(** A consumer's call [api.method(args)], for each method of the declared
    interface. *)
Inductive ApiCall : Type :=
  | Call_fetchTaskLists
  | Call_getTaskList (id : string)
  | Call_createTaskList (taskList : TaskListData)
  | Call_updateTaskList (id : string) (taskList : TaskList)
  | Call_deleteTaskList (id : string)
  | Call_fetchTasks (taskListId : string)
  | Call_createTask (taskListId : string) (task : TaskData)
  | Call_updateTask (taskListId : string) (taskId : string) (task : Task)
  | Call_deleteTask (taskListId : string) (taskId : string).

(** Calling a property: [undefined(...)] throws a [TypeError] at once, and
    nothing of the store is touched. *)
Definition call_method (name : string) (m : option (Async unit))
    (s : AppState) : Completion (Settled unit) * AppState :=
  match m with
  | Some body => let '(p, s') := body s in (Normal p, s')
  | None => (Throw (TypeError ("api." ++ name ++ " is not a function")%string), s)
  end.

Definition invoke (a : Api) (c : ApiCall)
    : AppState -> Completion (Settled unit) * AppState :=
  match c with
  | Call_fetchTaskLists =>
      call_method "fetchTaskLists" (api_fetchTaskLists a)
  | Call_getTaskList id =>
      call_method "getTaskList" (f ← api_getTaskList a; Some (f id))
  | Call_createTaskList taskList =>
      call_method "createTaskList" (f ← api_createTaskList a; Some (f taskList))
  | Call_updateTaskList id taskList =>
      call_method "updateTaskList" (f ← api_updateTaskList a; Some (f id taskList))
  | Call_deleteTaskList id =>
      call_method "deleteTaskList" (f ← api_deleteTaskList a; Some (f id))
  | Call_fetchTasks taskListId =>
      call_method "fetchTasks" (f ← api_fetchTasks a; Some (f taskListId))
  | Call_createTask taskListId task =>
      call_method "createTask" (f ← api_createTask a; Some (f taskListId task))
  | Call_updateTask taskListId taskId task =>
      call_method "updateTask" (f ← api_updateTask a; Some (f taskListId taskId task))
  | Call_deleteTask taskListId taskId =>
      call_method "deleteTask" (f ← api_deleteTask a; Some (f taskListId taskId))
  end.

(** The store after a series of calls, each made against the service as it
    answers at that moment. *)
Definition run_calls (steps : list (Network * ApiCall)) (s : AppState) : AppState :=
  fold_left (fun st step => snd (invoke (api (fst step)) (snd step) st)) steps s.

(** ** The context and its accessor *)

Record AppContextType : Type := mkAppContext {
  ctx_state : AppState;
  ctx_api : Api;
}.

(** [useContext(AppContext)]: the value of the nearest enclosing
    [AppContext.Provider], or the default given to [createContext], which
    is [undefined].  [enclosing] lists the values of the providers around
    the calling component, innermost first. *)
Definition useContext (enclosing : list AppContextType) : option AppContextType :=
  match enclosing with
  | value :: _ => Some value
  | [] => None
  end.

(** The value [AppProvider] passes to [AppContext.Provider]. *)
Definition AppProvider_value (net : Network) (state : AppState) : AppContextType :=
  {| ctx_state := state; ctx_api := api net |}.

Definition useAppContext (enclosing : list AppContextType)
    : Completion AppContextType :=
  match useContext enclosing with
  | None => Throw (UsageError "useAppContext must be used within an AppProvider")
  | Some context => Normal context
  end.

(** ** Upsert, as the spec words it *)

(** Follows the spec's glossary, not the source: "replace-if-present-else-
    append semantics applied to a keyed collection".  The reducer's cases
    are compared with it below. *)
Definition upsert {A} (key : A -> string) (x : A) (l : list A) : list A :=
  if existsb (fun y => key y =? key x) l
  then map (fun y => if key y =? key x then x else y) l
  else l ++ [x].

(** ** What a call asks of the network *)

Definition forget_data {D} (o : NetOutcome D) : NetOutcome unit :=
  match o with
  | TransportFailure => TransportFailure
  | HttpResponse status _ => HttpResponse status tt
  end.

(** The answer to the one request that a call sends, its body left out;
    [None] for a call that sends no request. *)
Definition response_to (net : Network) (c : ApiCall) : option (NetOutcome unit) :=
  match c with
  | Call_fetchTaskLists => Some (forget_data (GET_task_lists net))
  | Call_getTaskList id => Some (forget_data (GET_task_list net id))
  | Call_createTaskList taskList => Some (forget_data (POST_task_lists net taskList))
  | Call_updateTaskList id taskList => Some (forget_data (PUT_task_list net id taskList))
  | Call_deleteTaskList id => Some (forget_data (DELETE_task_list net id))
  | Call_fetchTasks taskListId => Some (forget_data (GET_tasks net taskListId))
  | Call_createTask _ _ | Call_updateTask _ _ _ | Call_deleteTask _ _ => None
  end.

(** A failed network call: no response, or a status outside 200..299. *)
Definition network_failure (o : NetOutcome unit) : Prop :=
  o = TransportFailure \/
  exists status, o = HttpResponse status tt /\ ~ (200 <= status < 300)%Z.

(** A service whose every endpoint answers with the given status. *)
Definition answering (status : Z) (lists : list TaskList) (one : TaskList)
    (ts : list Task) : Network :=
  {| GET_task_lists := HttpResponse status lists;
     GET_task_list := fun _ => HttpResponse status one;
     POST_task_lists := fun _ => HttpResponse status one;
     PUT_task_list := fun _ _ => HttpResponse status one;
     DELETE_task_list := fun _ => HttpResponse status tt;
     GET_tasks := fun _ => HttpResponse status ts |}.

(** ** Dispatching in a row, and what an action writes *)

(** A series of [dispatch] calls, in order. *)
Definition run_actions (actions : list Action) (s : AppState) : AppState :=
  fold_left reducer actions s.

(** The key of [state.tasks] that the case of an action assigns through its
    computed property; [None] for the cases that rebuild [taskLists]. *)
Definition written_key (action : Action) : option string :=
  match action with
  | FETCH_TASKLISTS _ | GET_TASKLIST _ | CREATE_TASKLIST _
  | UPDATE_TASKLIST _ | DELETE_TASKLIST _ => None
  | FETCH_TASKS taskListId _ | CREATE_TASK taskListId _
  | GET_TASK taskListId _ | UPDATE_TASK taskListId _ _
  | DELETE_TASK taskListId _ => Some taskListId
  end.

(** The ids of [taskLists], in order. *)
Definition list_ids (s : AppState) : list string := map tl_id (taskLists s).

(** Every key of the object holds an array, none holds [undefined]. *)
Definition arrays_only (obj : gmap string TaskSlot) : Prop :=
  map_Forall (fun _ v => is_Some v) obj.

(** ** [state.tasks] read as JavaScript reads it *)

(** The property names of [Object.prototype], which every object literal
    inherits. *)
Definition inherited_names : list string :=
  ["constructor"; "__defineGetter__"; "__defineSetter__"; "hasOwnProperty";
   "__lookupGetter__"; "__lookupSetter__"; "isPrototypeOf";
   "propertyIsEnumerable"; "toString"; "valueOf"; "__proto__";
   "toLocaleString"].

Definition inherited_member (key : string) : bool :=
  existsb (String.eqb key) inherited_names.

(** What [state.tasks[key]] evaluates to: [undefined], an array, or an
    inherited member (a function, or the prototype itself for
    "__proto__"), which is truthy, not iterable, and has neither [map] nor
    [filter]. *)
Inductive JsRead : Type :=
  | JsUndefined
  | JsArray (l : list Task)
  | JsInherited.

(** An own key is found first, whatever it holds; a name that is not an own
    key is looked up in the prototype. *)
Definition js_read (obj : gmap string TaskSlot) (key : string) : JsRead :=
  match obj !! key with
  | Some (Some l) => JsArray l
  | Some None => JsUndefined
  | None => if inherited_member key then JsInherited else JsUndefined
  end.

(** The read of [key] stops at the object itself or finds nothing at all. *)
Definition no_inherited_read (obj : gmap string TaskSlot) (key : string) : bool :=
  match obj !! key with
  | Some _ => true
  | None => negb (inherited_member key)
  end.

(** The spread of [v || []] inside an array literal. *)
Definition spread_or_empty (v : JsRead) : Completion (list Task) :=
  match v with
  | JsUndefined => Normal []
  | JsArray l => Normal l
  | JsInherited => Throw (TypeError "the value under the list id is not iterable")
  end.

(** [v?.method(...)], where [method] is [map] or [filter] and [f] is what
    the method does with the callback on an array. *)
Definition js_opt_call (v : JsRead) (method : string)
    (f : list Task -> list Task) : Completion TaskSlot :=
  match v with
  | JsUndefined => Normal None
  | JsArray l => Normal (Some (f l))
  | JsInherited => Throw (TypeError (method ++ " is not a function")%string)
  end.

Definition completion_map {A B} (f : A -> B) (c : Completion A) : Completion B :=
  match c with
  | Normal a => Normal (f a)
  | Throw e => Throw e
  end.

(** The reducer with [state.tasks[...]] read through the prototype chain. *)
Definition reducer_js (state : AppState) (action : Action) : Completion AppState :=
  match action with
  | FETCH_TASKLISTS payload =>
      Normal {| taskLists := payload; tasks := tasks state |}
  | GET_TASKLIST payload =>
      Normal
        {| taskLists :=
             if existsb (fun tl => tl_id tl =? tl_id payload) (taskLists state)
             then map (fun tl => if tl_id tl =? tl_id payload then payload else tl)
                      (taskLists state)
             else taskLists state ++ [payload];
           tasks := tasks state |}
  | CREATE_TASKLIST payload =>
      Normal {| taskLists := taskLists state ++ [payload]; tasks := tasks state |}
  | UPDATE_TASKLIST payload =>
      Normal
        {| taskLists :=
             map (fun tl => if tl_id tl =? tl_id payload then payload else tl)
                 (taskLists state);
           tasks := tasks state |}
  | DELETE_TASKLIST payload =>
      Normal
        {| taskLists :=
             List.filter (fun tl => negb (tl_id tl =? payload)) (taskLists state);
           tasks := tasks state |}
  | FETCH_TASKS taskListId ts =>
      Normal {| taskLists := taskLists state;
                tasks := <[taskListId := Some ts]> (tasks state) |}
  | CREATE_TASK taskListId task =>
      completion_map
        (fun l => {| taskLists := taskLists state;
                     tasks := <[taskListId := Some (l ++ [task])]> (tasks state) |})
        (spread_or_empty (js_read (tasks state) taskListId))
  | GET_TASK taskListId task =>
      completion_map
        (fun r => {| taskLists := taskLists state;
                     tasks := <[taskListId := Some (or_else r [task])]> (tasks state) |})
        (js_opt_call (js_read (tasks state) taskListId) "map"
           (map (fun t => if task_id t =? task_id task then task else t)))
  | UPDATE_TASK taskListId taskId task =>
      completion_map
        (fun r => {| taskLists := taskLists state;
                     tasks := <[taskListId := r]> (tasks state) |})
        (js_opt_call (js_read (tasks state) taskListId) "map"
           (map (fun t => if task_id t =? taskId then task else t)))
  | DELETE_TASK taskListId taskId =>
      completion_map
        (fun r => {| taskLists := taskLists state;
                     tasks := <[taskListId := r]> (tasks state) |})
        (js_opt_call (js_read (tasks state) taskListId) "filter"
           (List.filter (fun t => negb (task_id t =? taskId))))
  end.

(** A series of [dispatch] calls, stopped by the first one that throws. *)
Fixpoint run_actions_js (actions : list Action) (s : AppState) : Completion AppState :=
  match actions with
  | [] => Normal s
  | a :: rest =>
      match reducer_js s a with
      | Normal s' => run_actions_js rest s'
      | Throw e => Throw e
      end
  end.

(** The list id under which the case of an action reads [state.tasks];
    [FETCH_TASKS] writes its key without reading it. *)
Definition read_key (action : Action) : option string :=
  match action with
  | CREATE_TASK taskListId _ | GET_TASK taskListId _
  | UPDATE_TASK taskListId _ _ | DELETE_TASK taskListId _ => Some taskListId
  | FETCH_TASKLISTS _ | GET_TASKLIST _ | CREATE_TASKLIST _
  | UPDATE_TASKLIST _ | DELETE_TASKLIST _ | FETCH_TASKS _ _ => None
  end.

(** ** The action of each method *)

Definition settle_with {D} (r : Settled D) (action : D -> Action) : Settled Action :=
  match r with
  | Fulfilled data => Fulfilled (action data)
  | Rejected e => Rejected e
  end.

(** For each method of [api], how its request settles and, when it is
    fulfilled, the action that the method dispatches with the response;
    [None] for the methods that [api] lacks. *)
Definition action_of_call (net : Network) (c : ApiCall) : option (Settled Action) :=
  match c with
  | Call_fetchTaskLists =>
      Some (settle_with (axios (GET_task_lists net)) FETCH_TASKLISTS)
  | Call_getTaskList id =>
      Some (settle_with (axios (GET_task_list net id)) GET_TASKLIST)
  | Call_createTaskList taskList =>
      Some (settle_with (axios (POST_task_lists net taskList)) CREATE_TASKLIST)
  | Call_updateTaskList id taskList =>
      Some (settle_with (axios (PUT_task_list net id taskList)) UPDATE_TASKLIST)
  | Call_deleteTaskList id =>
      Some (settle_with (axios (DELETE_task_list net id))
              (fun _ => DELETE_TASKLIST id))
  | Call_fetchTasks taskListId =>
      Some (settle_with (axios (GET_tasks net taskListId)) (FETCH_TASKS taskListId))
  | Call_createTask _ _ | Call_updateTask _ _ _ | Call_deleteTask _ _ => None
  end.

(** ** Mounting the provider *)

(** [useReducer(reducer, initialState)] followed by the effect that runs
    once, [api.fetchTaskLists()].  The effect drops the promise: a rejection
    is not caught there and nothing else is done with it. *)
Definition AppProvider_mount (net : Network) : AppState :=
  snd (invoke (api net) Call_fetchTaskLists initialState).

(** ** The requests *)

Inductive Method : Type := GET | POST | PUT | DELETE.

Inductive Body : Type :=
  | NoBody
  | NewTaskList (taskList : TaskListData)
  | WholeTaskList (taskList : TaskList).

Record Request : Type := mkRequest {
  req_method : Method;
  req_url : string;
  req_body : Body;
}.

(** [import.meta.env.VITE_API_BASE_URL || "/api"]: an unset variable and the
    empty string are the two falsy values of a string setting. *)
Definition API_BASE_URL (VITE_API_BASE_URL : option string) : string :=
  match VITE_API_BASE_URL with
  | None => "/api"
  | Some "" => "/api"
  | Some url => url
  end.

(** The arguments that each method of [api] hands to axios: the method,
    the URL string built by its template literal, as written and before
    any resolution of it, and the body; [None] for the methods that [api]
    lacks. *)
Definition request_of (base : string) (c : ApiCall) : option Request :=
  match c with
  | Call_fetchTaskLists =>
      Some (mkRequest GET (base ++ "/task-lists")%string NoBody)
  | Call_getTaskList id =>
      Some (mkRequest GET (base ++ "/task-lists/" ++ id)%string NoBody)
  | Call_createTaskList taskList =>
      Some (mkRequest POST (base ++ "/task-lists")%string (NewTaskList taskList))
  | Call_updateTaskList id taskList =>
      Some (mkRequest PUT (base ++ "/task-lists/" ++ id)%string
              (WholeTaskList taskList))
  | Call_deleteTaskList id =>
      Some (mkRequest DELETE (base ++ "/task-lists/" ++ id)%string NoBody)
  | Call_fetchTasks taskListId =>
      Some (mkRequest GET (base ++ "/task-lists/" ++ taskListId ++ "/tasks")%string
              NoBody)
  | Call_createTask _ _ | Call_updateTask _ _ _ | Call_deleteTask _ _ => None
  end.

(** ** The scenario of the spec, as values *)

Definition list_A : TaskList := mkTaskList "A" "Work".
Definition list_B : TaskList := mkTaskList "B" "Home".
Definition task_1 : Task := mkTask "1" "x".
Definition task_2 : Task := mkTask "2" "y".

(** ** Proof steps *)

(** Runs the body of a method whose request settles as [H] says. *)
Ltac run_method H :=
  simpl; unfold call_method, async_bind, await, dispatch;
  simpl; rewrite H; reflexivity.

(** Unfolds a call through the context down to its axios request. *)
Ltac run_call net :=
  unfold invoke, api; simpl;
  unfold call_method, fetchTaskLists, getTaskList, createTaskList,
    updateTaskList, deleteTaskList, fetchTasks, async_bind, await, dispatch;
  simpl.

(** ** Lists: replacing and removing by id *)

Section ById.

Context {A : Type} (key : A -> string).

Lemma existsb_key_false (k : string) (l : list A) :
  existsb (fun y => key y =? k) l = false <->
  (forall y, In y l -> key y <> k).
Proof.
  induction l as [|a l IH]; simpl.
  - split; [intros _ y [] | reflexivity].
  - rewrite orb_false_iff, IH, String.eqb_neq. split.
    + intros [Ha Hl] y [<- | Hy]; auto.
    + intros H. split; [apply H; now left | intros y Hy; apply H; now right].
Qed.

Lemma existsb_key_true (k : string) (l : list A) :
  existsb (fun y => key y =? k) l = true <->
  (exists y, In y l /\ key y = k).
Proof.
  rewrite existsb_exists. split; intros (y & Hy & E); exists y; split; auto.
  - now apply String.eqb_eq.
  - now apply String.eqb_eq.
Qed.

Lemma map_replace_unknown (k : string) (x : A) (l : list A) :
  (forall y, In y l -> key y <> k) ->
  map (fun y => if key y =? k then x else y) l = l.
Proof.
  induction l as [|a l IH]; simpl; intros H; [reflexivity|].
  destruct (String.eqb_spec (key a) k) as [E | _].
  - exfalso. apply (H a); [now left | exact E].
  - f_equal. apply IH. intros y Hy. apply H. now right.
Qed.

Lemma map_replace_lookup (k : string) (x : A) (l : list A) (i : nat) (y : A) :
  l !! i = Some y ->
  map (fun y => if key y =? k then x else y) l !! i
    = Some (if key y =? k then x else y).
Proof.
  revert i. induction l as [|a l IH]; intros [|i]; simpl; try discriminate.
  - now intros [= ->].
  - apply IH.
Qed.

Lemma filter_remove_unknown (k : string) (l : list A) :
  (forall y, In y l -> key y <> k) ->
  List.filter (fun y => negb (key y =? k)) l = l.
Proof.
  induction l as [|a l IH]; simpl; intros H; [reflexivity|].
  destruct (String.eqb_spec (key a) k) as [E | _]; simpl.
  - exfalso. apply (H a); [now left | exact E].
  - f_equal. apply IH. intros y Hy. apply H. now right.
Qed.

Lemma filter_remove_unique (before after : list A) (x : A) :
  List.NoDup (map key (before ++ x :: after)) ->
  List.filter (fun y => negb (key y =? key x)) (before ++ x :: after)
    = before ++ after.
Proof.
  intros ND. rewrite map_app in ND. simpl in ND.
  apply List.NoDup_remove in ND. destruct ND as [_ Hx].
  rewrite List.filter_app. simpl. rewrite String.eqb_refl. simpl.
  rewrite !filter_remove_unknown; [reflexivity | |];
    intros y Hy E; apply Hx; apply in_or_app;
    [right | left]; rewrite <- E; now apply in_map.
Qed.

Lemma map_replace_unique (before after : list A) (x new : A) :
  List.NoDup (map key (before ++ x :: after)) ->
  map (fun y => if key y =? key x then new else y) (before ++ x :: after)
    = before ++ new :: after.
Proof.
  intros ND. rewrite map_app in ND. simpl in ND.
  apply List.NoDup_remove in ND. destruct ND as [_ Hx].
  rewrite map_app. simpl. rewrite String.eqb_refl.
  rewrite !map_replace_unknown; [reflexivity | |];
    intros y Hy E; apply Hx; apply in_or_app;
    [right | left]; rewrite <- E; now apply in_map.
Qed.

End ById.

(** ** The reducer, case by case *)

Lemma prop_read_insert_eq (obj : gmap string TaskSlot) (key : string) (v : TaskSlot) :
  prop_read (<[key := v]> obj) key = v.
Proof. unfold prop_read. now rewrite lookup_insert_eq. Qed.

Lemma prop_read_insert_ne (obj : gmap string TaskSlot) (key other : string) (v : TaskSlot) :
  key <> other -> prop_read (<[key := v]> obj) other = prop_read obj other.
Proof. intros H. unfold prop_read. now rewrite lookup_insert_ne. Qed.

Lemma prop_read_absent (obj : gmap string TaskSlot) (key : string) :
  obj !! key = None -> prop_read obj key = None.
Proof. intros H. unfold prop_read. now rewrite H. Qed.

Lemma state_eta (s : AppState) :
  {| taskLists := taskLists s; tasks := tasks s |} = s.
Proof. now destruct s. Qed.

(** [GET_TASKLIST] is the spec's upsert on [taskLists]. *)
Lemma GET_TASKLIST_upsert (s : AppState) (payload : TaskList) :
  reducer s (GET_TASKLIST payload)
    = {| taskLists := upsert tl_id payload (taskLists s); tasks := tasks s |}.
Proof. reflexivity. Qed.

(** [CREATE_TASK] appends to the sequence read under the key, an absent
    sequence counting as empty, and touches nothing else. *)
Lemma CREATE_TASK_appends (s : AppState) (taskListId : string) (task : Task) :
  let s' := reducer s (CREATE_TASK taskListId task) in
  tasks s' !! taskListId
    = Some (Some (or_else (prop_read (tasks s) taskListId) [] ++ [task]))
  /\ (forall other, taskListId <> other -> tasks s' !! other = tasks s !! other)
  /\ taskLists s' = taskLists s.
Proof.
  simpl. split; [apply lookup_insert_eq|].
  split; [|reflexivity]. intros other H. now apply lookup_insert_ne.
Qed.

(** [GET_TASK] on a key that holds a sequence only maps over it. *)
Lemma GET_TASK_present (s : AppState) (taskListId : string) (task : Task)
    (l : list Task) :
  prop_read (tasks s) taskListId = Some l ->
  prop_read (tasks (reducer s (GET_TASK taskListId task))) taskListId
    = Some (map (fun t => if task_id t =? task_id task then task else t) l).
Proof. intros H. simpl. rewrite prop_read_insert_eq, H. reflexivity. Qed.

Lemma GET_TASK_present_unknown (s : AppState) (taskListId : string) (task : Task)
    (l : list Task) :
  prop_read (tasks s) taskListId = Some l ->
  (forall t, In t l -> task_id t <> task_id task) ->
  prop_read (tasks (reducer s (GET_TASK taskListId task))) taskListId = Some l.
Proof.
  intros H Hl. rewrite (GET_TASK_present _ _ _ _ H).
  now rewrite map_replace_unknown.
Qed.

(** [GET_TASK] on a key that holds no sequence stores the task alone. *)
Lemma GET_TASK_missing (s : AppState) (taskListId : string) (task : Task) :
  prop_read (tasks s) taskListId = None ->
  prop_read (tasks (reducer s (GET_TASK taskListId task))) taskListId
    = Some [task].
Proof. intros H. simpl. rewrite prop_read_insert_eq, H. reflexivity. Qed.

(** [UPDATE_TASK] and [DELETE_TASK] on a key that holds a sequence act on
    it as [UPDATE_TASKLIST] and [DELETE_TASKLIST] act on [taskLists]. *)
Lemma UPDATE_TASK_present (s : AppState) (taskListId taskId : string)
    (task : Task) (l : list Task) :
  prop_read (tasks s) taskListId = Some l ->
  prop_read (tasks (reducer s (UPDATE_TASK taskListId taskId task))) taskListId
    = Some (map (fun t => if task_id t =? taskId then task else t) l).
Proof. intros H. simpl. rewrite prop_read_insert_eq, H. reflexivity. Qed.

Lemma DELETE_TASK_present (s : AppState) (taskListId taskId : string)
    (l : list Task) :
  prop_read (tasks s) taskListId = Some l ->
  prop_read (tasks (reducer s (DELETE_TASK taskListId taskId))) taskListId
    = Some (List.filter (fun t => negb (task_id t =? taskId)) l).
Proof. intros H. simpl. rewrite prop_read_insert_eq, H. reflexivity. Qed.

(** ** The two readings of [state.tasks] *)

Lemma js_read_plain (obj : gmap string TaskSlot) (key : string) :
  no_inherited_read obj key = true ->
  js_read obj key
    = match prop_read obj key with Some l => JsArray l | None => JsUndefined end.
Proof.
  unfold no_inherited_read, js_read, prop_read.
  destruct (obj !! key) as [[l|]|]; try reflexivity.
  destruct (inherited_member key); [discriminate | reflexivity].
Qed.

Lemma js_read_inherited (obj : gmap string TaskSlot) (key : string) :
  no_inherited_read obj key = false -> js_read obj key = JsInherited.
Proof.
  unfold no_inherited_read, js_read.
  destruct (obj !! key) as [v|]; [discriminate|].
  destruct (inherited_member key); [reflexivity | discriminate].
Qed.

(** Where no read falls through to an inherited member, [reducer_js] is
    [reducer]. *)
Lemma reducer_js_plain (s : AppState) (a : Action) :
  (forall k, read_key a = Some k -> no_inherited_read (tasks s) k = true) ->
  reducer_js s a = Normal (reducer s a).
Proof.
  intros H. destruct a; simpl in *; try reflexivity;
    rewrite (js_read_plain _ _ (H _ eq_refl));
    destruct (prop_read (tasks s) taskListId); reflexivity.
Qed.

Lemma reducer_js_inherited (s : AppState) (a : Action) (k : string) :
  read_key a = Some k -> no_inherited_read (tasks s) k = false ->
  exists message, reducer_js s a = Throw (TypeError message).
Proof.
  intros Hk H. destruct a; simpl in Hk; try discriminate;
    injection Hk as ->; simpl; rewrite (js_read_inherited _ _ H);
    eexists; reflexivity.
Qed.

(** ** The API methods on a fulfilled and on a rejected request *)

Lemma fetchTaskLists_fulfilled net s data :
  axios (GET_task_lists net) = Fulfilled data ->
  invoke (api net) Call_fetchTaskLists s
    = (Normal (Fulfilled tt), reducer s (FETCH_TASKLISTS data)).
Proof. intros H. unfold invoke, api_fetchTaskLists, api, fetchTaskLists. run_method H. Qed.

Lemma getTaskList_fulfilled net s id data :
  axios (GET_task_list net id) = Fulfilled data ->
  invoke (api net) (Call_getTaskList id) s
    = (Normal (Fulfilled tt), reducer s (GET_TASKLIST data)).
Proof. intros H. unfold invoke, api, getTaskList. run_method H. Qed.

Lemma updateTaskList_fulfilled net s id taskList data :
  axios (PUT_task_list net id taskList) = Fulfilled data ->
  invoke (api net) (Call_updateTaskList id taskList) s
    = (Normal (Fulfilled tt), reducer s (UPDATE_TASKLIST data)).
Proof. intros H. unfold invoke, api, updateTaskList. run_method H. Qed.

Lemma deleteTaskList_fulfilled net s id u :
  axios (DELETE_task_list net id) = Fulfilled u ->
  invoke (api net) (Call_deleteTaskList id) s
    = (Normal (Fulfilled tt), reducer s (DELETE_TASKLIST id)).
Proof. intros H. unfold invoke, api, deleteTaskList. run_method H. Qed.

Lemma axios_failure {D} (o : NetOutcome D) :
  network_failure (forget_data o) -> exists e, axios o = Rejected e.
Proof.
  intros [H | (status & H & Hs)]; destruct o as [|st d]; try discriminate.
  - now exists NetworkError.
  - injection H as ->. exists (HTTPError status). simpl. unfold validateStatus.
    destruct (200 <=? status)%Z eqn:E1; destruct (status <? 300)%Z eqn:E2;
      try reflexivity.
    exfalso. apply Hs. lia.
Qed.

Lemma axios_fulfilled {D} (o : NetOutcome D) (d : D) :
  axios o = Fulfilled d <->
  exists status, o = HttpResponse status d /\ (200 <= status < 300)%Z.
Proof.
  destruct o as [|st d']; simpl; unfold validateStatus.
  - split; [discriminate | intros (? & ? & _); discriminate].
  - destruct (Z.leb_spec 200 st); destruct (Z.ltb_spec st 300); simpl; split;
      try discriminate;
      try (intros [= <-]; exists st; split; [reflexivity | lia]);
      intros (st' & [= <- <-] & Hs); try reflexivity; lia.
Qed.

Lemma invoke_request_rejected net c s o :
  response_to net c = Some o -> network_failure o ->
  exists e, invoke (api net) c s = (Normal (Rejected e), s).
Proof.
  intros Hc Ho.
  destruct c; simpl in Hc; try discriminate; injection Hc as <-;
    destruct (axios_failure _ Ho) as [e He]; exists e;
    unfold invoke, api; simpl;
    unfold call_method, fetchTaskLists, getTaskList, createTaskList,
      updateTaskList, deleteTaskList, fetchTasks, async_bind, await;
    now rewrite He.
Qed.

Lemma fetchTaskLists_keeps_tasks net s :
  tasks (snd (invoke (api net) Call_fetchTaskLists s)) = tasks s.
Proof.
  unfold invoke, api; simpl.
  unfold call_method, fetchTaskLists, async_bind, await, dispatch.
  now destruct (axios (GET_task_lists net)).
Qed.

Lemma run_calls_app steps1 steps2 s :
  run_calls (steps1 ++ steps2) s = run_calls steps2 (run_calls steps1 s).
Proof. unfold run_calls. apply fold_left_app. Qed.

Lemma run_calls_snoc steps net c s :
  run_calls (steps ++ [(net, c)]) s
    = snd (invoke (api net) c (run_calls steps s)).
Proof. now rewrite run_calls_app. Qed.

Lemma run_fetchTaskLists_keeps_tasks (nets : list Network) (s : AppState) :
  tasks (run_calls (map (fun n => (n, Call_fetchTaskLists)) nets) s) = tasks s.
Proof.
  induction nets as [|n nets IH] using rev_ind; [reflexivity|].
  rewrite map_app. simpl map.
  now rewrite run_calls_snoc, fetchTaskLists_keeps_tasks.
Qed.

(** Section 8 of the spec, last scenario: list the task lists, list the
    tasks of "A", delete "A". *)
Example scenario_list_then_delete :
  let net := answering 200 [list_A] list_A [task_1] in
  let s1 := run_calls [(net, Call_fetchTaskLists)] initialState in
  let s2 := run_calls [(net, Call_fetchTasks "A")] s1 in
  let s3 := run_calls [(net, Call_deleteTaskList "A")] s2 in
  taskLists s1 = [list_A]
  /\ prop_read (tasks s2) "A" = Some [task_1]
  /\ taskLists s3 = []
  /\ prop_read (tasks s3) "A" = Some [task_1].
Proof.
  cbv zeta. unfold run_calls. simpl.
  rewrite !prop_read_insert_eq. repeat split; reflexivity.
Qed.

(** ** Task-level transitions against the TaskList ones *)

(** C1.  The claim asks that [GET_TASK] be an upsert on the sequence under
    the list id, as [GET_TASKLIST] is on [taskLists].  On a store whose list
    "A" holds task "1", fetching task "2" leaves the sequence as it was: the
    fallback [|| [task]] is reached only when no sequence is stored, and an
    empty stored sequence stays empty.  The spec's upsert appends, and so
    does [GET_TASKLIST] on the same shape of input. *)
Theorem GET_TASK_does_not_append_to_stored_sequence :
  let s := {| taskLists := [list_A]; tasks := {["A" := Some [task_1]]} |} in
  let empty := {| taskLists := [list_A]; tasks := {["A" := Some []]} |} in
  prop_read (tasks (reducer s (GET_TASK "A" task_2))) "A" = Some [task_1]
  /\ prop_read (tasks (reducer s (GET_TASK "A" task_2))) "A"
     <> Some (upsert task_id task_2 [task_1])
  /\ prop_read (tasks (reducer empty (GET_TASK "A" task_2))) "A" = Some []
  /\ upsert task_id task_2 [task_1] = [task_1; task_2]
  /\ upsert task_id task_2 [] = [task_2]
  /\ taskLists (reducer s (GET_TASKLIST list_B)) = [list_A; list_B].
Proof.
  simpl. rewrite !prop_read_insert_eq.
  unfold prop_read. rewrite !lookup_singleton_eq. simpl.
  repeat split; try reflexivity. discriminate.
Qed.

(** ** Failure of the network call *)

(** C2.  Whatever method of the API is called and whatever the store holds,
    when the one request of the call gets no response or a response outside
    200..299, the promise of the call rejects and the store is exactly what
    it was; so for [createTaskList] against a service that answers 500. *)
Theorem failed_request_rejects_and_keeps_state :
  forall (net : Network) (c : ApiCall) (s : AppState) (o : NetOutcome unit),
    response_to net c = Some o ->
    network_failure o ->
    (exists e, invoke (api net) c s = (Normal (Rejected e), s))
    /\ (forall taskList,
          o = HttpResponse 500 tt -> c = Call_createTaskList taskList ->
          invoke (api net) c s = (Normal (Rejected (HTTPError 500)), s)
          /\ taskLists (snd (invoke (api net) c s)) = taskLists s).
Proof.
  intros net c s o Hc Ho. split.
  - now apply (invoke_request_rejected net c s o).
  - intros taskList -> ->. simpl in Hc. injection Hc as Hc.
    assert (E : invoke (api net) (Call_createTaskList taskList) s
                = (Normal (Rejected (HTTPError 500)), s)).
    { unfold invoke, api; simpl.
      unfold call_method, createTaskList, async_bind, await.
      destruct (POST_task_lists net taskList) as [|st d]; [discriminate|].
      injection Hc as ->. reflexivity. }
    now rewrite E.
Qed.

Lemma failed_request_rejects_and_keeps_state_witness :
  let net := answering 500 [] list_A [] in
  let s := {| taskLists := [list_B]; tasks := ∅ |} in
  let c := Call_createTaskList (mkTaskListData "Work") in
  invoke (api net) c s = (Normal (Rejected (HTTPError 500)), s)
  /\ taskLists (snd (invoke (api net) c s)) = [list_B].
Proof.
  intros net s c.
  assert (Hc : response_to net c = Some (HttpResponse 500 tt)) by reflexivity.
  assert (Ho : network_failure (HttpResponse 500 tt)).
  { right. exists 500%Z. split; [reflexivity | lia]. }
  exact (proj2 (failed_request_rejects_and_keeps_state net c s _ Hc Ho)
           (mkTaskListData "Work") eq_refl eq_refl).
Defined.

(** ** Listing the task lists *)

(** C3.  After any series of [fetchTaskLists] calls that all succeed, from
    any store, [taskLists] is the body of the last response, entry for
    entry; nothing of the earlier store or of the earlier responses is kept
    in it, and [tasks] is what it was. *)
Theorem fetchTaskLists_last_response_wins :
  forall (s : AppState) (earlier : list Network) (net : Network)
         (last : list TaskList),
    Forall (fun n => exists d, axios (GET_task_lists n) = Fulfilled d) earlier ->
    axios (GET_task_lists net) = Fulfilled last ->
    let s' := run_calls (map (fun n => (n, Call_fetchTaskLists)) (earlier ++ [net])) s in
    taskLists s' = last /\ tasks s' = tasks s.
Proof.
  intros s earlier net last _ Hlast. cbv zeta.
  rewrite map_app. simpl map.
  rewrite run_calls_snoc, (fetchTaskLists_fulfilled _ _ _ Hlast).
  split; [reflexivity|]. apply run_fetchTaskLists_keeps_tasks.
Qed.

Lemma fetchTaskLists_last_response_wins_witness :
  let first := answering 200 [list_A; list_B] list_A [] in
  let second := answering 204 [list_B] list_A [] in
  let s := {| taskLists := [list_A]; tasks := {["A" := Some [task_1]]} |} in
  let s' := run_calls [(first, Call_fetchTaskLists); (second, Call_fetchTaskLists)] s in
  taskLists s' = [list_B] /\ tasks s' = tasks s.
Proof.
  intros first second s.
  apply (fetchTaskLists_last_response_wins s [first] second [list_B]).
  - constructor; [|constructor]. exists [list_A; list_B]. reflexivity.
  - reflexivity.
Defined.

(** ** Fetching one task list *)

(** C4.  A successful [getTaskList] upserts the fetched TaskList into
    [taskLists] by its id.  When some entry has that id, the length is kept
    and, position by position, an entry with that id becomes the fetched
    one and any other entry stays as and where it was.  When no entry has
    that id, the fetched one is appended at the end, so the length grows by
    one.  [tasks] is not touched. *)
Theorem getTaskList_upserts :
  forall (net : Network) (s : AppState) (id : string) (fetched : TaskList),
    axios (GET_task_list net id) = Fulfilled fetched ->
    exists s',
      invoke (api net) (Call_getTaskList id) s = (Normal (Fulfilled tt), s')
      /\ tasks s' = tasks s
      /\ ((exists tl, In tl (taskLists s) /\ tl_id tl = tl_id fetched) ->
            length (taskLists s') = length (taskLists s)
            /\ forall i tl, taskLists s !! i = Some tl ->
                 taskLists s' !! i
                   = Some (if tl_id tl =? tl_id fetched then fetched else tl))
      /\ ((forall tl, In tl (taskLists s) -> tl_id tl <> tl_id fetched) ->
            taskLists s' = taskLists s ++ [fetched]
            /\ length (taskLists s') = S (length (taskLists s))).
Proof.
  intros net s id fetched H.
  exists (reducer s (GET_TASKLIST fetched)).
  split; [now apply getTaskList_fulfilled|].
  split; [reflexivity|]. simpl. split.
  - intros Hex. apply (existsb_key_true tl_id) in Hex. rewrite Hex.
    split; [apply length_map|]. intros i tl Hi.
    now apply (map_replace_lookup tl_id).
  - intros Hno. apply (existsb_key_false tl_id) in Hno. rewrite Hno.
    split; [reflexivity|]. rewrite length_app. simpl. lia.
Qed.

Lemma getTaskList_upserts_witness :
  let net := answering 200 [] (mkTaskList "A" "Errands") [] in
  let s := {| taskLists := [list_A; list_B]; tasks := ∅ |} in
  exists s',
    invoke (api net) (Call_getTaskList "A") s = (Normal (Fulfilled tt), s')
    /\ taskLists s' = [mkTaskList "A" "Errands"; list_B].
Proof.
  intros net s.
  destruct (getTaskList_upserts net s "A" (mkTaskList "A" "Errands") eq_refl)
    as (s' & Hrun & _ & _ & _).
  exists s'. split; [exact Hrun|].
  injection Hrun as <-. reflexivity.
Defined.

(** ** Updates with an unknown id *)

(** C5, as the code has it.  A successful [updateTaskList] whose returned
    TaskList has an id that no entry of [taskLists] has (the requested id,
    whenever the server answers under it) gives back the same store.  The
    [UPDATE_TASK] transition with a task id that no task of the list's
    sequence has, on a list id whose read does not fall through to an
    inherited member, leaves what is read under the list id as it was (the
    same sequence, or still none), and leaves [taskLists] and every other
    key alone. *)
Theorem update_with_unmatched_id_is_noop :
  forall (net : Network) (s : AppState),
    (forall (id : string) (taskList data : TaskList),
        axios (PUT_task_list net id taskList) = Fulfilled data ->
        (forall tl, In tl (taskLists s) -> tl_id tl <> tl_id data) ->
        invoke (api net) (Call_updateTaskList id taskList) s
          = (Normal (Fulfilled tt), s))
    /\ (forall (taskListId taskId : string) (task : Task),
          no_inherited_read (tasks s) taskListId = true ->
          (forall l t, prop_read (tasks s) taskListId = Some l ->
                       In t l -> task_id t <> taskId) ->
          exists s',
            reducer_js s (UPDATE_TASK taskListId taskId task) = Normal s'
            /\ prop_read (tasks s') taskListId = prop_read (tasks s) taskListId
            /\ taskLists s' = taskLists s
            /\ forall other, taskListId <> other ->
                             tasks s' !! other = tasks s !! other).
Proof.
  intros net s. split.
  - intros id taskList data Hput Hno.
    rewrite (updateTaskList_fulfilled _ _ _ _ _ Hput). f_equal. simpl.
    rewrite (map_replace_unknown tl_id); [apply state_eta | exact Hno].
  - intros taskListId taskId task Hplain H.
    exists (reducer s (UPDATE_TASK taskListId taskId task)).
    split.
    { apply reducer_js_plain. simpl. now intros k [= <-]. }
    simpl. split; [|split; [reflexivity|]].
    + rewrite prop_read_insert_eq.
      destruct (prop_read (tasks s) taskListId) as [l|] eqn:E; simpl;
        [|reflexivity].
      f_equal. apply (map_replace_unknown task_id). intros t. now apply H.
    + intros other Hne. now apply lookup_insert_ne.
Qed.

Lemma update_with_unmatched_id_is_noop_witness :
  let net := answering 200 [] list_B [] in
  let s := {| taskLists := [list_A]; tasks := {["A" := Some [task_1]]} |} in
  invoke (api net) (Call_updateTaskList "B" list_B) s = (Normal (Fulfilled tt), s)
  /\ exists s',
       reducer_js s (UPDATE_TASK "A" "2" task_2) = Normal s'
       /\ prop_read (tasks s') "A" = Some [task_1].
Proof.
  intros net s.
  destruct (update_with_unmatched_id_is_noop net s) as [Hlist Htask]. split.
  - apply (Hlist "B" list_B list_B eq_refl).
    intros tl [<- | []]. discriminate.
  - destruct (Htask "A" "2" task_2) as (s' & Hrun & Hread & _).
    + unfold no_inherited_read, s. simpl. now rewrite lookup_singleton_eq.
    + intros l t Hl Ht. unfold prop_read, s in Hl. simpl in Hl.
      rewrite lookup_singleton_eq in Hl. injection Hl as <-.
      destruct Ht as [<- | []]. discriminate.
    + exists s'. split; [exact Hrun|]. rewrite Hread.
      unfold prop_read, s. simpl. now rewrite lookup_singleton_eq.
Defined.

(** C5, as the claim words it, fails twice.  [updateTaskList] of "Z", an id
    that no entry has, replaces the entry "A" when the server answers with
    a TaskList under "A": the reducer matches on the id of the response.
    And [UPDATE_TASK] on the list id "constructor", with no task sequence
    and so no task of the given id, is not a silent no-op: it throws. *)
Lemma update_with_unknown_id_can_change_or_throw :
  let net := answering 200 [] (mkTaskList "A" "Errands") [] in
  let s := {| taskLists := [list_A]; tasks := ∅ |} in
  (forall tl, In tl (taskLists s) -> tl_id tl <> "Z")
  /\ taskLists (snd (invoke (api net) (Call_updateTaskList "Z" (mkTaskList "Z" "New")) s))
     = [mkTaskList "A" "Errands"]
  /\ taskLists (snd (invoke (api net) (Call_updateTaskList "Z" (mkTaskList "Z" "New")) s))
     <> taskLists s
  /\ prop_read (tasks s) "constructor" = None
  /\ reducer_js s (UPDATE_TASK "constructor" "1" task_1)
     = Throw (TypeError "map is not a function").
Proof.
  cbv zeta. split; [intros tl [<- | []]; discriminate|].
  split; [reflexivity|]. split; [discriminate|].
  split; [apply prop_read_absent, lookup_empty|].
  simpl. unfold js_read. simpl. rewrite lookup_empty. reflexivity.
Qed.

(** ** Deleting a task list *)

(** C6.  With ids unique in [taskLists] and an entry with the given id in
    it, a successful [deleteTaskList] takes out that entry and no other,
    the rest keeping their order, and gives back the very same [tasks]
    object content: every key, the deleted list's included, reads as
    before. *)
Theorem deleteTaskList_removes_one_and_keeps_tasks :
  forall (net : Network) (s : AppState) (id : string)
         (before after : list TaskList) (tl : TaskList) (u : unit),
    axios (DELETE_task_list net id) = Fulfilled u ->
    taskLists s = before ++ tl :: after ->
    tl_id tl = id ->
    List.NoDup (map tl_id (taskLists s)) ->
    exists s',
      invoke (api net) (Call_deleteTaskList id) s = (Normal (Fulfilled tt), s')
      /\ taskLists s' = before ++ after
      /\ S (length (taskLists s')) = length (taskLists s)
      /\ tasks s' = tasks s.
Proof.
  intros net s id before after tl u Hnet Hs Hid Hnd.
  exists (reducer s (DELETE_TASKLIST id)).
  split; [now apply (deleteTaskList_fulfilled net s id u)|].
  simpl. rewrite Hs in *. subst id.
  rewrite (filter_remove_unique tl_id) by exact Hnd.
  split; [reflexivity|]. split; [|reflexivity].
  rewrite !length_app. simpl. lia.
Qed.

Lemma deleteTaskList_removes_one_and_keeps_tasks_witness :
  let net := answering 204 [] list_A [] in
  let s := {| taskLists := [list_A; list_B]; tasks := {["A" := Some [task_1]]} |} in
  exists s',
    invoke (api net) (Call_deleteTaskList "A") s = (Normal (Fulfilled tt), s')
    /\ taskLists s' = [list_B]
    /\ tasks s' = {["A" := Some [task_1]]}.
Proof.
  intros net s.
  destruct (deleteTaskList_removes_one_and_keeps_tasks
              net s "A" [] [list_B] list_A tt eq_refl eq_refl eq_refl)
    as (s' & Hrun & Hlists & _ & Htasks).
  - simpl. repeat constructor; simpl; intuition discriminate.
  - exists s'. repeat split; assumption.
Defined.

(** ** Creating a task *)

(** C7.  The claim has [createTask(listId, data)] append the task that the
    server returns.  The object bound to [api] has no [createTask]: the call
    throws before any request or dispatch, and the sequence under "A" is
    the one that was there.  The [CREATE_TASK] case of the reducer would
    have appended (see [CREATE_TASK_appends]), but no method dispatches
    it. *)
Theorem createTask_call_appends_nothing :
  forall (net : Network),
    let s := {| taskLists := [list_A]; tasks := {["A" := Some [task_1]]} |} in
    let call := Call_createTask "A" (mkTaskData "y") in
    invoke (api net) call s
      = (Throw (TypeError "api.createTask is not a function"), s)
    /\ prop_read (tasks (snd (invoke (api net) call s))) "A" = Some [task_1]
    /\ prop_read (tasks (reducer s (CREATE_TASK "A" task_2))) "A"
       = Some [task_1; task_2].
Proof.
  intros net. cbv zeta. split; [reflexivity|]. simpl.
  rewrite prop_read_insert_eq. unfold prop_read.
  rewrite lookup_singleton_eq. split; reflexivity.
Qed.

(** ** The accessor of the context *)

(** C8.  With no [AppProvider] around the caller, [useAppContext] throws
    its usage error and returns no value at all.  With one around it,
    whatever lies further out, it returns the value of the nearest one: the
    provider's current state together with its [api] object. *)
Theorem useAppContext_throws_outside_provider :
  useAppContext []
    = Throw (UsageError "useAppContext must be used within an AppProvider")
  /\ (forall value : AppContextType, useAppContext [] <> Normal value)
  /\ (forall (net : Network) (state : AppState) (outer : list AppContextType),
        useAppContext (AppProvider_value net state :: outer)
          = Normal {| ctx_state := state; ctx_api := api net |}).
Proof.
  split; [reflexivity|]. split; [discriminate|]. reflexivity.
Qed.

(** ** Methods that the API object lacks *)

(** C9.  Of the nine methods that the context's type declares, the object
    bound to [api] has the six for task lists and for listing tasks, and
    lacks [createTask], [updateTask] and [deleteTask].  Calling one of the
    three throws a [TypeError] on every store and with every argument, the
    store being left as it was. *)
Theorem api_lacks_task_mutators :
  forall (net : Network),
    (api_fetchTaskLists (api net) = Some (fetchTaskLists net)
     /\ api_getTaskList (api net) = Some (getTaskList net)
     /\ api_createTaskList (api net) = Some (createTaskList net)
     /\ api_updateTaskList (api net) = Some (updateTaskList net)
     /\ api_deleteTaskList (api net) = Some (deleteTaskList net)
     /\ api_fetchTasks (api net) = Some (fetchTasks net))
    /\ (api_createTask (api net) = None
        /\ api_updateTask (api net) = None
        /\ api_deleteTask (api net) = None)
    /\ (forall s taskListId task,
          invoke (api net) (Call_createTask taskListId task) s
            = (Throw (TypeError "api.createTask is not a function"), s))
    /\ (forall s taskListId taskId task,
          invoke (api net) (Call_updateTask taskListId taskId task) s
            = (Throw (TypeError "api.updateTask is not a function"), s))
    /\ (forall s taskListId taskId,
          invoke (api net) (Call_deleteTask taskListId taskId) s
            = (Throw (TypeError "api.deleteTask is not a function"), s)).
Proof.
  intros net. repeat split; reflexivity.
Qed.

(** ** Task transitions on a list id that holds no sequence *)




(** * Further properties of the reducer *)

(** ** More on replacing and removing by id *)

Section ByIdMore.

Context {A : Type} (key : A -> string).

Lemma map_replace_keys (x : A) (l : list A) :
  map key (map (fun y => if key y =? key x then x else y) l) = map key l.
Proof.
  induction l as [|a l IH]; simpl; [reflexivity|]. rewrite IH. f_equal.
  destruct (String.eqb_spec (key a) (key x)) as [E | _]; congruence.
Qed.

Lemma map_replace_twice (x : A) (l : list A) :
  let f := fun y => if key y =? key x then x else y in
  map f (map f l) = map f l.
Proof.
  simpl. rewrite map_map. apply map_ext. intros a.
  destruct (String.eqb_spec (key a) (key x)) as [E | NE].
  - now rewrite String.eqb_refl.
  - now apply String.eqb_neq in NE as ->.
Qed.

Lemma filter_remove_In (k : string) (l : list A) (y : A) :
  In y (List.filter (fun y => negb (key y =? k)) l) <-> In y l /\ key y <> k.
Proof.
  rewrite List.filter_In, negb_true_iff, String.eqb_neq. reflexivity.
Qed.

Lemma filter_remove_twice (k : string) (l : list A) :
  let p := fun y => negb (key y =? k) in
  List.filter p (List.filter p l) = List.filter p l.
Proof.
  simpl. induction l as [|a l IH]; simpl; [reflexivity|].
  destruct (negb (key a =? k)) eqn:E; simpl; [rewrite E|]; now rewrite IH.
Qed.

Lemma filter_keys_NoDup (p : A -> bool) (l : list A) :
  List.NoDup (map key l) -> List.NoDup (map key (List.filter p l)).
Proof.
  induction l as [|a l IH]; simpl; intros ND; [constructor|].
  inversion ND as [|? ? Hnotin ND']; subst.
  destruct (p a); simpl; [|now apply IH].
  constructor; [|now apply IH].
  intros Hin. apply Hnotin. apply in_map_iff in Hin as (y & <- & Hy).
  apply in_map. now apply List.filter_In in Hy as [Hy _].
Qed.

Lemma filter_length_le (p : A -> bool) (l : list A) :
  length (List.filter p l) <= length l.
Proof.
  induction l as [|a l IH]; simpl; [lia|]. destruct (p a); simpl; lia.
Qed.

Lemma snoc_keys_NoDup (x : A) (l : list A) :
  List.NoDup (map key l) -> ~ In (key x) (map key l) ->
  List.NoDup (map key (l ++ [x])).
Proof.
  intros ND Hx. rewrite map_app. simpl.
  apply List.NoDup_app; [exact ND | repeat constructor; intros [] |].
  intros k Hk [<- | []]. now apply Hx.
Qed.

Lemma upsert_keys_NoDup (x : A) (l : list A) :
  List.NoDup (map key l) -> List.NoDup (map key (upsert key x l)).
Proof.
  intros ND. unfold upsert.
  destruct (existsb (fun y => key y =? key x) l) eqn:E.
  - now rewrite map_replace_keys.
  - apply snoc_keys_NoDup; [exact ND|].
    intros Hin. apply in_map_iff in Hin as (y & Hk & Hy).
    now apply (proj1 (existsb_key_false key (key x) l) E y Hy).
Qed.

Lemma upsert_In (x : A) (l : list A) : In x (upsert key x l).
Proof.
  unfold upsert. destruct (existsb (fun y => key y =? key x) l) eqn:E.
  - apply existsb_key_true in E as (y & Hy & Hk).
    apply in_map_iff. exists y. split; [|exact Hy].
    now apply String.eqb_eq in Hk as ->.
  - apply in_or_app. right. now left.
Qed.

Lemma upsert_twice (x : A) (l : list A) :
  upsert key x (upsert key x l) = upsert key x l.
Proof.
  assert (Hex : existsb (fun y => key y =? key x) (upsert key x l) = true).
  { apply existsb_key_true. exists x. split; [apply upsert_In | reflexivity]. }
  unfold upsert at 1. rewrite Hex. unfold upsert.
  destruct (existsb (fun y => key y =? key x) l) eqn:E.
  - apply map_replace_twice.
  - rewrite map_app. simpl. rewrite String.eqb_refl.
    rewrite map_replace_unknown; [reflexivity|].
    now apply existsb_key_false.
Qed.

Lemma snoc_then_remove (x : A) (l : list A) :
  (forall y, In y l -> key y <> key x) ->
  List.filter (fun y => negb (key y =? key x)) (l ++ [x]) = l.
Proof.
  intros H. rewrite List.filter_app. simpl. rewrite String.eqb_refl. simpl.
  rewrite app_nil_r. now apply filter_remove_unknown.
Qed.

End ByIdMore.

(** ** Shared steps *)

Lemma reducer_keeps_task_keys (s : AppState) (a : Action) :
  dom (tasks s) ⊆ dom (tasks (reducer s a)).
Proof.
  destruct a; simpl; try reflexivity; rewrite dom_insert_L; set_solver.
Qed.

Lemma createTaskList_fulfilled net s taskList data :
  axios (POST_task_lists net taskList) = Fulfilled data ->
  invoke (api net) (Call_createTaskList taskList) s
    = (Normal (Fulfilled tt), reducer s (CREATE_TASKLIST data)).
Proof. intros H. unfold invoke, api, createTaskList. run_method H. Qed.

Lemma fetchTasks_fulfilled net s taskListId data :
  axios (GET_tasks net taskListId) = Fulfilled data ->
  invoke (api net) (Call_fetchTasks taskListId) s
    = (Normal (Fulfilled tt), reducer s (FETCH_TASKS taskListId data)).
Proof. intros H. unfold invoke, api, fetchTasks. run_method H. Qed.

Lemma run_calls_cons net c steps s :
  run_calls ((net, c) :: steps) s
    = run_calls steps (snd (invoke (api net) c s)).
Proof. reflexivity. Qed.

Lemma run_calls_one net c s :
  run_calls [(net, c)] s = snd (invoke (api net) c s).
Proof. reflexivity. Qed.

(** ** What an action leaves alone *)

(** X1.  An action writes at most one key of [tasks], the one its payload
    names: every other key reads as before.  The five task-list actions
    give back the very same [tasks], and the five task actions the very
    same [taskLists]. *)
Theorem reducer_frame :
  forall (s : AppState) (a : Action) (other : string),
    written_key a <> Some other ->
    tasks (reducer s a) !! other = tasks s !! other
    /\ (written_key a = None -> tasks (reducer s a) = tasks s)
    /\ (written_key a <> None -> taskLists (reducer s a) = taskLists s).
Proof.
  intros s a other H.
  destruct a; simpl in *;
    (split; [try reflexivity; apply lookup_insert_ne; congruence|]);
    (split; [intros E; try reflexivity; discriminate E
            | intros E; try reflexivity; now destruct E]).
Qed.

Lemma reducer_frame_witness :
  let s := {| taskLists := [list_A]; tasks := {["A" := Some [task_1]]} |} in
  tasks (reducer s (DELETE_TASK "B" "1")) !! "A" = Some (Some [task_1])
  /\ taskLists (reducer s (DELETE_TASK "B" "1")) = [list_A].
Proof.
  intros s.
  destruct (reducer_frame s (DELETE_TASK "B" "1") "A") as (Hk & _ & Hl).
  - simpl. discriminate.
  - split.
    + rewrite Hk. apply lookup_singleton_eq.
    + apply Hl. discriminate.
Defined.

(** X2.  No series of actions ever removes a key of [tasks]: a key that is
    there stays there, also after [DELETE_TASKLIST] of its list and after
    [DELETE_TASK] of its last task. *)
Theorem run_actions_keeps_task_keys :
  forall (actions : list Action) (s : AppState),
    dom (tasks s) ⊆ dom (tasks (run_actions actions s)).
Proof.
  induction actions as [|a actions IH]; intros s; [reflexivity|].
  simpl. etransitivity; [apply (reducer_keeps_task_keys s a) | apply IH].
Qed.

(** ** Unique ids in [taskLists] *)

(** X3.  The reducer keeps the ids of [taskLists] free of repeats, given
    what it cannot check itself: a listing from the server without repeats
    for [FETCH_TASKLISTS], and an id not yet in use for [CREATE_TASKLIST].
    Every other action keeps them so without condition. *)
Theorem reducer_keeps_unique_ids :
  forall (s : AppState) (a : Action),
    List.NoDup (list_ids s) ->
    match a with
    | FETCH_TASKLISTS payload => List.NoDup (map tl_id payload)
    | CREATE_TASKLIST payload => ~ In (tl_id payload) (list_ids s)
    | _ => True
    end ->
    List.NoDup (list_ids (reducer s a)).
Proof.
  intros s a ND Ha. unfold list_ids in *. destruct a; simpl; try exact ND.
  - exact Ha.
  - now apply (upsert_keys_NoDup tl_id).
  - now apply snoc_keys_NoDup.
  - now rewrite (map_replace_keys tl_id).
  - now apply filter_keys_NoDup.
Qed.

Lemma reducer_keeps_unique_ids_witness :
  let s := {| taskLists := [list_A]; tasks := ∅ |} in
  List.NoDup (list_ids (reducer s (CREATE_TASKLIST list_B))).
Proof.
  intros s. apply (reducer_keeps_unique_ids s (CREATE_TASKLIST list_B)).
  - repeat constructor. intros [].
  - simpl. intros [E | []]. discriminate E.
Defined.

(** X4.  [CREATE_TASKLIST] has no guard on the id: a payload whose id is
    already in [taskLists] is appended all the same, and the ids then
    repeat. *)
Theorem CREATE_TASKLIST_existing_id_repeats :
  forall (s : AppState) (payload : TaskList),
    In (tl_id payload) (list_ids s) ->
    taskLists (reducer s (CREATE_TASKLIST payload)) = taskLists s ++ [payload]
    /\ ~ List.NoDup (list_ids (reducer s (CREATE_TASKLIST payload))).
Proof.
  intros s payload Hin. split; [reflexivity|].
  unfold list_ids. simpl. rewrite map_app. simpl. intros ND.
  apply List.NoDup_remove_2 in ND. apply ND. rewrite app_nil_r. exact Hin.
Qed.

Lemma CREATE_TASKLIST_existing_id_repeats_witness :
  let s := {| taskLists := [list_A]; tasks := ∅ |} in
  taskLists (reducer s (CREATE_TASKLIST (mkTaskList "A" "Again")))
    = [list_A; mkTaskList "A" "Again"]
  /\ ~ List.NoDup (list_ids (reducer s (CREATE_TASKLIST (mkTaskList "A" "Again")))).
Proof.
  intros s.
  apply (CREATE_TASKLIST_existing_id_repeats s (mkTaskList "A" "Again")).
  simpl. now left.
Defined.

(** ** Task lists: update, delete, get, create *)

(** X5.  A successful [updateTaskList] changes [taskLists] by the response
    alone: position by position, an entry whose id is the id of the
    returned TaskList becomes the returned one, and any other entry stays,
    the entry with the requested id included when the server answers under
    another id.  The ids, their order, the length and [tasks] are as
    before. *)
Theorem updateTaskList_replaces_by_response_id :
  forall (net : Network) (s : AppState) (id : string) (taskList data : TaskList),
    axios (PUT_task_list net id taskList) = Fulfilled data ->
    exists s',
      invoke (api net) (Call_updateTaskList id taskList) s
        = (Normal (Fulfilled tt), s')
      /\ list_ids s' = list_ids s
      /\ length (taskLists s') = length (taskLists s)
      /\ tasks s' = tasks s
      /\ forall i tl, taskLists s !! i = Some tl ->
           taskLists s' !! i
             = Some (if tl_id tl =? tl_id data then data else tl).
Proof.
  intros net s id taskList data H.
  exists (reducer s (UPDATE_TASKLIST data)).
  split; [now apply updateTaskList_fulfilled|].
  unfold list_ids. simpl.
  split; [apply (map_replace_keys tl_id)|].
  split; [apply length_map|]. split; [reflexivity|].
  intros i tl Hi. now apply (map_replace_lookup tl_id).
Qed.

Lemma updateTaskList_replaces_by_response_id_witness :
  let net := answering 200 [] (mkTaskList "A" "Errands") [] in
  let s := {| taskLists := [list_A; list_B]; tasks := ∅ |} in
  exists s',
    invoke (api net) (Call_updateTaskList "B" (mkTaskList "B" "Garden")) s
      = (Normal (Fulfilled tt), s')
    /\ taskLists s' = [mkTaskList "A" "Errands"; list_B].
Proof.
  intros net s.
  destruct (updateTaskList_replaces_by_response_id
              net s "B" (mkTaskList "B" "Garden") (mkTaskList "A" "Errands")
              eq_refl)
    as (s' & Hrun & _).
  exists s'. split; [exact Hrun|]. injection Hrun as <-. reflexivity.
Defined.

(** X6.  After [DELETE_TASKLIST] an entry is in [taskLists] exactly when it
    was there before and has another id: every entry with the id goes,
    repeats included, and nothing else does.  The result is never longer,
    and deleting the same id again changes nothing. *)
Theorem DELETE_TASKLIST_removes_every_match :
  forall (s : AppState) (id : string),
    (forall tl, In tl (taskLists (reducer s (DELETE_TASKLIST id)))
                <-> In tl (taskLists s) /\ tl_id tl <> id)
    /\ length (taskLists (reducer s (DELETE_TASKLIST id)))
       <= length (taskLists s)
    /\ reducer (reducer s (DELETE_TASKLIST id)) (DELETE_TASKLIST id)
       = reducer s (DELETE_TASKLIST id).
Proof.
  intros s id. simpl. split; [|split].
  - intros tl. apply (filter_remove_In tl_id).
  - apply filter_length_le.
  - f_equal. apply (filter_remove_twice tl_id).
Qed.

(** X7.  A successful [deleteTaskList] of an id that no entry has leaves the
    store equal to what it was; the call still fulfils, with no sign that
    nothing was found. *)
Theorem deleteTaskList_unknown_id_is_noop :
  forall (net : Network) (s : AppState) (id : string) (u : unit),
    axios (DELETE_task_list net id) = Fulfilled u ->
    (forall tl, In tl (taskLists s) -> tl_id tl <> id) ->
    invoke (api net) (Call_deleteTaskList id) s = (Normal (Fulfilled tt), s).
Proof.
  intros net s id u H Hno.
  rewrite (deleteTaskList_fulfilled net s id u H). f_equal. simpl.
  rewrite (filter_remove_unknown tl_id) by exact Hno. apply state_eta.
Qed.

Lemma deleteTaskList_unknown_id_is_noop_witness :
  let net := answering 204 [] list_A [] in
  let s := {| taskLists := [list_A]; tasks := {["A" := Some [task_1]]} |} in
  invoke (api net) (Call_deleteTaskList "B") s = (Normal (Fulfilled tt), s).
Proof.
  intros net s.
  apply (deleteTaskList_unknown_id_is_noop net s "B" tt eq_refl).
  intros tl [<- | []]. discriminate.
Defined.

(** X8.  After [GET_TASKLIST] the payload itself is an entry of
    [taskLists], whatever was there, and dispatching the same action again
    changes nothing. *)
Theorem GET_TASKLIST_stores_payload :
  forall (s : AppState) (payload : TaskList),
    In payload (taskLists (reducer s (GET_TASKLIST payload)))
    /\ reducer (reducer s (GET_TASKLIST payload)) (GET_TASKLIST payload)
       = reducer s (GET_TASKLIST payload).
Proof.
  intros s payload. rewrite !GET_TASKLIST_upsert. simpl. split.
  - apply upsert_In.
  - f_equal. apply upsert_twice.
Qed.

(** X9.  A successful [createTaskList] appends the TaskList of the response
    at the end, whatever the payload sent was.  When its id was not in use,
    a successful [deleteTaskList] of that id then gives back the store as
    it was before the two calls. *)
Theorem createTaskList_then_deleteTaskList :
  forall (net1 net2 : Network) (s : AppState) (taskList : TaskListData)
         (created : TaskList) (u : unit),
    axios (POST_task_lists net1 taskList) = Fulfilled created ->
    axios (DELETE_task_list net2 (tl_id created)) = Fulfilled u ->
    (forall tl, In tl (taskLists s) -> tl_id tl <> tl_id created) ->
    let s1 := run_calls [(net1, Call_createTaskList taskList)] s in
    taskLists s1 = taskLists s ++ [created]
    /\ tasks s1 = tasks s
    /\ run_calls [(net2, Call_deleteTaskList (tl_id created))] s1 = s.
Proof.
  intros net1 net2 s taskList created u Hpost Hdel Hfresh. cbv zeta.
  rewrite !run_calls_one, (createTaskList_fulfilled _ _ _ _ Hpost).
  split; [reflexivity|]. split; [reflexivity|].
  rewrite (deleteTaskList_fulfilled _ _ _ _ Hdel). simpl.
  rewrite (snoc_then_remove tl_id) by exact Hfresh. apply state_eta.
Qed.

Lemma createTaskList_then_deleteTaskList_witness :
  let net := answering 201 [] list_B [] in
  let s := {| taskLists := [list_A]; tasks := {["A" := Some [task_1]]} |} in
  let s1 := run_calls [(net, Call_createTaskList (mkTaskListData "Home"))] s in
  taskLists s1 = [list_A; list_B]
  /\ run_calls [(net, Call_deleteTaskList "B")] s1 = s.
Proof.
  intros net s.
  destruct (createTaskList_then_deleteTaskList
              net net s (mkTaskListData "Home") list_B tt eq_refl eq_refl)
    as (Hl & _ & Hback).
  - intros tl [<- | []]. discriminate.
  - split; [exact Hl | exact Hback].
Defined.

(** ** Tasks of one list *)

(** X10.  A successful [fetchTasks] stores the response under the list id
    in place of whatever was there, an earlier sequence or nothing, and
    leaves the other keys and [taskLists] alone. *)
Theorem fetchTasks_replaces_sequence :
  forall (net : Network) (s : AppState) (taskListId : string) (data : list Task),
    axios (GET_tasks net taskListId) = Fulfilled data ->
    exists s',
      invoke (api net) (Call_fetchTasks taskListId) s = (Normal (Fulfilled tt), s')
      /\ tasks s' !! taskListId = Some (Some data)
      /\ (forall other, taskListId <> other -> tasks s' !! other = tasks s !! other)
      /\ taskLists s' = taskLists s.
Proof.
  intros net s taskListId data H.
  exists (reducer s (FETCH_TASKS taskListId data)).
  split; [now apply fetchTasks_fulfilled|]. simpl.
  split; [apply lookup_insert_eq|]. split; [|reflexivity].
  intros other Hne. now apply lookup_insert_ne.
Qed.

Lemma fetchTasks_replaces_sequence_witness :
  let net := answering 200 [] list_A [task_2] in
  let s := {| taskLists := [list_A]; tasks := {["A" := Some [task_1]]} |} in
  exists s',
    invoke (api net) (Call_fetchTasks "A") s = (Normal (Fulfilled tt), s')
    /\ tasks s' !! "A" = Some (Some [task_2]).
Proof.
  intros net s.
  destruct (fetchTasks_replaces_sequence net s "A" [task_2] eq_refl)
    as (s' & Hrun & Hk & _).
  exists s'. split; [exact Hrun | exact Hk].
Defined.

(** X11.  Two [FETCH_TASKS] in a row: on the same key the second one alone
    counts, and on two different keys the order does not matter. *)
Theorem FETCH_TASKS_overwrites_and_commutes :
  forall (s : AppState) (k : string) (a b : list Task),
    reducer (reducer s (FETCH_TASKS k a)) (FETCH_TASKS k b)
      = reducer s (FETCH_TASKS k b)
    /\ forall k', k <> k' ->
         reducer (reducer s (FETCH_TASKS k a)) (FETCH_TASKS k' b)
           = reducer (reducer s (FETCH_TASKS k' b)) (FETCH_TASKS k a).
Proof.
  intros s k a b. simpl. split.
  - f_equal. apply insert_insert_eq.
  - intros k' Hne. f_equal. now apply insert_insert_ne.
Qed.

Lemma FETCH_TASKS_overwrites_and_commutes_witness :
  reducer (reducer initialState (FETCH_TASKS "A" [task_1])) (FETCH_TASKS "B" [task_2])
    = reducer (reducer initialState (FETCH_TASKS "B" [task_2])) (FETCH_TASKS "A" [task_1]).
Proof.
  apply (proj2 (FETCH_TASKS_overwrites_and_commutes initialState "A" [task_1] [task_2])).
  discriminate.
Defined.

(** X12.  [CREATE_TASK] of a task whose id is not in the list's sequence,
    then [DELETE_TASK] of that id, gives back the sequence as it was, on
    every list id whose read does not fall through to an inherited member.
    From a key that stored nothing the two leave the empty array, not
    [undefined]. *)
Theorem CREATE_TASK_then_DELETE_TASK :
  forall (s : AppState) (taskListId : string) (task : Task),
    let before := or_else (prop_read (tasks s) taskListId) [] in
    no_inherited_read (tasks s) taskListId = true ->
    (forall t, In t before -> task_id t <> task_id task) ->
    exists s',
      run_actions_js [CREATE_TASK taskListId task;
                      DELETE_TASK taskListId (task_id task)] s = Normal s'
      /\ tasks s' !! taskListId = Some (Some before).
Proof.
  intros s taskListId task before Hplain Hfresh.
  exists (run_actions [CREATE_TASK taskListId task;
                       DELETE_TASK taskListId (task_id task)] s).
  split.
  - unfold run_actions. simpl fold_left. unfold run_actions_js.
    rewrite reducer_js_plain by (simpl; now intros k [= <-]).
    rewrite reducer_js_plain; [reflexivity|].
    simpl. intros k [= <-]. unfold no_inherited_read.
    now rewrite lookup_insert_eq.
  - unfold run_actions. simpl.
    rewrite lookup_insert_eq, prop_read_insert_eq. simpl. do 2 f_equal.
    now apply (snoc_then_remove task_id).
Qed.

Lemma CREATE_TASK_then_DELETE_TASK_witness :
  exists s',
    run_actions_js [CREATE_TASK "A" task_1; DELETE_TASK "A" "1"] initialState
      = Normal s'
    /\ tasks s' !! "A" = Some (Some []).
Proof.
  apply (CREATE_TASK_then_DELETE_TASK initialState "A" task_1).
  - unfold no_inherited_read, initialState. simpl. now rewrite lookup_empty.
  - intros t Ht. unfold prop_read, initialState in Ht. cbn [tasks] in Ht.
    rewrite lookup_empty in Ht. destruct Ht.
Defined.

(** X20.  On a list id whose read does not fall through to an inherited
    member, [CREATE_TASK] puts the new task at the end of the sequence held
    under the list id, one entry more than before, and starts a sequence of
    that one task when the key held nothing; the other keys and [taskLists]
    are as they were.  It does not look at the id of the task: a task whose
    id is already in the sequence is appended as well. *)
Theorem CREATE_TASK_appends_one :
  forall (s : AppState) (taskListId : string) (task : Task),
    no_inherited_read (tasks s) taskListId = true ->
    exists s',
      reducer_js s (CREATE_TASK taskListId task) = Normal s'
      /\ (forall l, prop_read (tasks s) taskListId = Some l ->
                    tasks s' !! taskListId = Some (Some (l ++ [task])))
      /\ (prop_read (tasks s) taskListId = None ->
          tasks s' !! taskListId = Some (Some [task]))
      /\ (forall other, taskListId <> other -> tasks s' !! other = tasks s !! other)
      /\ taskLists s' = taskLists s.
Proof.
  intros s taskListId task Hplain.
  exists (reducer s (CREATE_TASK taskListId task)).
  split; [apply reducer_js_plain; simpl; now intros k [= <-]|].
  simpl. rewrite lookup_insert_eq.
  split; [intros l ->; reflexivity|]. split; [intros ->; reflexivity|].
  split; [|reflexivity]. intros other Hne. now apply lookup_insert_ne.
Qed.

Lemma CREATE_TASK_appends_one_witness :
  let s := {| taskLists := []; tasks := {["A" := Some [task_1]]} |} in
  exists s',
    reducer_js s (CREATE_TASK "A" task_1) = Normal s'
    /\ tasks s' !! "A" = Some (Some [task_1; task_1]).
Proof.
  intros s.
  destruct (CREATE_TASK_appends_one s "A" task_1) as (s' & Hrun & Hl & _).
  - unfold no_inherited_read, s. simpl. now rewrite lookup_singleton_eq.
  - exists s'. split; [exact Hrun|]. apply (Hl [task_1]).
    unfold prop_read, s. simpl. now rewrite lookup_singleton_eq.
Defined.

(** X13.  On a key that holds a sequence, [DELETE_TASK] keeps exactly the
    tasks with another id, so every task with the id goes and the sequence
    never grows; with an id that no task has, the sequence is as before. *)
Theorem DELETE_TASK_removes_every_match :
  forall (s : AppState) (taskListId taskId : string) (l : list Task),
    prop_read (tasks s) taskListId = Some l ->
    exists l',
      tasks (reducer s (DELETE_TASK taskListId taskId)) !! taskListId
        = Some (Some l')
      /\ (forall t, In t l' <-> In t l /\ task_id t <> taskId)
      /\ length l' <= length l
      /\ ((forall t, In t l -> task_id t <> taskId) -> l' = l).
Proof.
  intros s taskListId taskId l H.
  exists (List.filter (fun t => negb (task_id t =? taskId)) l). simpl.
  rewrite lookup_insert_eq, H. simpl. split; [reflexivity|].
  split; [intros t; apply (filter_remove_In task_id)|].
  split; [apply filter_length_le|]. apply (filter_remove_unknown task_id).
Qed.

Lemma DELETE_TASK_removes_every_match_witness :
  let s := {| taskLists := []; tasks := {["A" := Some [task_1; task_2]]} |} in
  exists l',
    tasks (reducer s (DELETE_TASK "A" "1")) !! "A" = Some (Some l')
    /\ length l' <= 2.
Proof.
  intros s.
  destruct (DELETE_TASK_removes_every_match s "A" "1" [task_1; task_2])
    as (l' & Hk & _ & Hlen & _).
  - unfold prop_read, s. simpl. now rewrite lookup_singleton_eq.
  - exists l'. split; [exact Hk | exact Hlen].
Defined.

(** X14.  On a key that holds a sequence, [GET_TASK] and [UPDATE_TASK] only
    replace in place: the length is kept, and position by position a task
    with the matched id becomes the payload's task while any other stays.
    [GET_TASK] keeps the ids as they were.  [UPDATE_TASK] matches on
    [taskId], not on the id of the new task: when the two differ, no task
    with [taskId] is left afterwards. *)
Theorem GET_TASK_and_UPDATE_TASK_replace_in_place :
  forall (s : AppState) (taskListId taskId : string) (task : Task) (l : list Task),
    prop_read (tasks s) taskListId = Some l ->
    exists got updated,
      tasks (reducer s (GET_TASK taskListId task)) !! taskListId = Some (Some got)
      /\ tasks (reducer s (UPDATE_TASK taskListId taskId task)) !! taskListId
         = Some (Some updated)
      /\ map task_id got = map task_id l
      /\ length updated = length l
      /\ (forall i t, l !! i = Some t ->
            got !! i = Some (if task_id t =? task_id task then task else t)
            /\ updated !! i = Some (if task_id t =? taskId then task else t))
      /\ (task_id task <> taskId -> forall t, In t updated -> task_id t <> taskId).
Proof.
  intros s taskListId taskId task l H.
  exists (map (fun t => if task_id t =? task_id task then task else t) l),
         (map (fun t => if task_id t =? taskId then task else t) l).
  simpl. rewrite !lookup_insert_eq, H. simpl.
  split; [reflexivity|]. split; [reflexivity|].
  split; [apply (map_replace_keys task_id)|]. split; [apply length_map|].
  split.
  - intros i t Hi. split; now apply (map_replace_lookup task_id).
  - intros Hne t Ht. apply in_map_iff in Ht as (t0 & <- & _).
    destruct (String.eqb_spec (task_id t0) taskId); assumption.
Qed.

Lemma GET_TASK_and_UPDATE_TASK_replace_in_place_witness :
  let s := {| taskLists := []; tasks := {["A" := Some [task_1]]} |} in
  exists got updated,
    tasks (reducer s (GET_TASK "A" task_2)) !! "A" = Some (Some got)
    /\ tasks (reducer s (UPDATE_TASK "A" "1" task_2)) !! "A" = Some (Some updated)
    /\ map task_id got = ["1"]
    /\ length updated = 1.
Proof.
  intros s.
  destruct (GET_TASK_and_UPDATE_TASK_replace_in_place s "A" "1" task_2 [task_1])
    as (got & updated & Hg & Hu & Hids & Hlen & _).
  - unfold prop_read, s. simpl. now rewrite lookup_singleton_eq.
  - exists got, updated. repeat split; assumption.
Defined.

(** * Further properties of the API and the provider *)

(** ** One call, at most one transition *)

Lemma invoke_keeps_arrays_only net c s :
  arrays_only (tasks s) -> arrays_only (tasks (snd (invoke (api net) c s))).
Proof.
  intros H. destruct c; run_call net;
    match goal with
    | |- context [axios ?o] => destruct (axios o)
    | _ => idtac
    end; simpl; try exact H.
  apply map_Forall_insert_2; [eexists; reflexivity | exact H].
Qed.

(** X15.  A call through the context does one of three things, fixed by
    the method and by how its request settles.  A method that [api] lacks
    throws, and the store is as it was.  A method whose request is
    rejected returns a promise rejected with the same error, and the store
    is as it was.  A method whose request is fulfilled returns a fulfilled
    promise, and the store is the result of the reducer on the one action
    of that method built from the response; that action is never one on
    which the reducer can throw. *)
Theorem invoke_applies_the_action_of_the_call :
  forall (net : Network) (c : ApiCall) (s : AppState),
    match action_of_call net c with
    | None => exists e, invoke (api net) c s = (Throw e, s)
    | Some (Rejected e) => invoke (api net) c s = (Normal (Rejected e), s)
    | Some (Fulfilled a) =>
        invoke (api net) c s = (Normal (Fulfilled tt), reducer s a)
        /\ reducer_js s a = Normal (reducer s a)
    end.
Proof.
  intros net c s.
  destruct c as [| id | taskList | id taskList | id | taskListId | | |];
    simpl action_of_call; try (eexists; reflexivity).
  - destruct (axios (GET_task_lists net)) as [d | e] eqn:E; simpl.
    + split; [now apply fetchTaskLists_fulfilled | reflexivity].
    + run_call net. now rewrite E.
  - destruct (axios (GET_task_list net id)) as [d | e] eqn:E; simpl.
    + split; [now apply getTaskList_fulfilled | reflexivity].
    + run_call net. now rewrite E.
  - destruct (axios (POST_task_lists net taskList)) as [d | e] eqn:E; simpl.
    + split; [now apply createTaskList_fulfilled | reflexivity].
    + run_call net. now rewrite E.
  - destruct (axios (PUT_task_list net id taskList)) as [d | e] eqn:E; simpl.
    + split; [now apply updateTaskList_fulfilled | reflexivity].
    + run_call net. now rewrite E.
  - destruct (axios (DELETE_task_list net id)) as [d | e] eqn:E; simpl.
    + split; [now apply (deleteTaskList_fulfilled net s id d) | reflexivity].
    + run_call net. now rewrite E.
  - destruct (axios (GET_tasks net taskListId)) as [d | e] eqn:E; simpl.
    + split; [now apply fetchTasks_fulfilled | reflexivity].
    + run_call net. now rewrite E.
Qed.

(** X16.  Through the API the entry of [tasks] under a key changes by
    [fetchTasks] of that key and by no other call: every other call, and
    [fetchTasks] of another list, leaves it exactly as it was, whether the
    call succeeds or fails. *)
Theorem only_fetchTasks_writes_a_key :
  forall (net : Network) (c : ApiCall) (s : AppState) (k : string),
    c <> Call_fetchTasks k ->
    tasks (snd (invoke (api net) c s)) !! k = tasks s !! k.
Proof.
  intros net c s k Hc. destruct c; run_call net;
    match goal with
    | |- context [axios ?o] => destruct (axios o)
    | _ => idtac
    end; simpl; try reflexivity.
  apply lookup_insert_ne. congruence.
Qed.

Lemma only_fetchTasks_writes_a_key_witness :
  let net := answering 200 [list_B] list_B [task_2] in
  let s := {| taskLists := [list_A]; tasks := {["A" := Some [task_1]]} |} in
  tasks (snd (invoke (api net) (Call_fetchTasks "B") s)) !! "A"
    = Some (Some [task_1]).
Proof.
  intros net s.
  rewrite (only_fetchTasks_writes_a_key net (Call_fetchTasks "B") s "A").
  - apply lookup_singleton_eq.
  - discriminate.
Defined.

(** X17.  No series of calls through the API ever stores [undefined] under
    a key of [tasks]: if every key holds an array before, every key holds
    an array after.  The reducer cases that can store [undefined],
    [UPDATE_TASK] and [DELETE_TASK], are reached by no method. *)
Theorem run_calls_keeps_arrays_only :
  forall (steps : list (Network * ApiCall)) (s : AppState),
    arrays_only (tasks s) -> arrays_only (tasks (run_calls steps s)).
Proof.
  induction steps as [|[net c] steps IH]; intros s H; [exact H|].
  rewrite run_calls_cons. apply IH. now apply invoke_keeps_arrays_only.
Qed.

Lemma run_calls_keeps_arrays_only_witness :
  let net := answering 200 [list_A] list_A [task_1] in
  arrays_only
    (tasks (run_calls [(net, Call_fetchTasks "A");
                       (net, Call_updateTask "B" "1" task_1);
                       (net, Call_deleteTaskList "A")] initialState)).
Proof.
  intros net. apply run_calls_keeps_arrays_only.
  unfold arrays_only. apply map_Forall_empty.
Defined.

(** ** Mounting *)

(** X18.  Right after mounting, the store holds the listing of the first
    response and no tasks when the request succeeds, and is still the
    initial, empty store when it fails: the failure leaves no trace in the
    state. *)
Theorem AppProvider_mount_result :
  forall (net : Network),
    AppProvider_mount net
      = match axios (GET_task_lists net) with
        | Fulfilled data => {| taskLists := data; tasks := ∅ |}
        | Rejected _ => initialState
        end.
Proof.
  intros net. unfold AppProvider_mount. run_call net.
  now destruct (axios (GET_task_lists net)).
Qed.

(** ** The URLs of the requests *)

Lemma list_ascii_app (a b : string) :
  String.list_ascii_of_string (a ++ b)%string
    = String.list_ascii_of_string a ++ String.list_ascii_of_string b.
Proof.
  induction a as [|x a IH]; [reflexivity|].
  change (x :: String.list_ascii_of_string (a ++ b)%string
          = x :: (String.list_ascii_of_string a ++ String.list_ascii_of_string b)).
  now rewrite IH.
Qed.

Lemma string_app_inv_tail (a b c : string) :
  (a ++ c)%string = (b ++ c)%string -> a = b.
Proof.
  intros H. apply (f_equal String.list_ascii_of_string) in H.
  rewrite !list_ascii_app in H. apply app_inv_tail in H.
  apply (f_equal String.string_of_list_ascii) in H.
  now rewrite !String.string_of_list_ascii_of_string in H.
Qed.

Lemma string_app_inv_head (a b c : string) :
  (a ++ b)%string = (a ++ c)%string -> b = c.
Proof.
  induction a as [|x a IH]; [trivial|].
  change (String x (a ++ b)%string = String x (a ++ c)%string -> b = c).
  intros [= H]. now apply IH.
Qed.

(** X19.  The URL strings that the methods hand to axios: for two
    different ids, [getTaskList], [deleteTaskList] and [fetchTasks] each
    hand over two different strings, whatever the base URL is.  The ids go
    into the string as they are, with no escaping, so across methods the
    strings can be the same: [getTaskList] of an id followed by "/tasks"
    hands axios exactly what [fetchTasks] of the id does.  What the strings
    resolve to on the way to the server is not part of this. *)
Theorem axios_urls_tell_ids_apart :
  forall (VITE_API_BASE_URL : option string) (id1 id2 : string),
    id1 <> id2 ->
    let base := API_BASE_URL VITE_API_BASE_URL in
    request_of base (Call_getTaskList id1) <> request_of base (Call_getTaskList id2)
    /\ request_of base (Call_deleteTaskList id1)
       <> request_of base (Call_deleteTaskList id2)
    /\ request_of base (Call_fetchTasks id1) <> request_of base (Call_fetchTasks id2)
    /\ request_of base (Call_getTaskList (id1 ++ "/tasks")%string)
       = request_of base (Call_fetchTasks id1).
Proof.
  intros env id1 id2 Hne base. simpl.
  repeat split; try (intros [= H]; apply Hne;
    apply string_app_inv_head in H; apply string_app_inv_head in H;
    try exact H; now apply string_app_inv_tail in H).
Qed.

Lemma axios_urls_tell_ids_apart_witness :
  request_of "/api" (Call_fetchTasks "A") <> request_of "/api" (Call_fetchTasks "B").
Proof.
  apply (axios_urls_tell_ids_apart None "A" "B"). discriminate.
Defined.

(** ** Where the reducer throws *)

(** X21.  The reducer throws exactly when [CREATE_TASK], [GET_TASK],
    [UPDATE_TASK] or [DELETE_TASK] names a list id that is not a key of
    [tasks] and is the name of a member that every object inherits, such
    as "constructor" or "toString".  In every other case, and for each of
    the six other actions, it returns the state that the reading of own
    keys gives. *)
Theorem reducer_js_throws_on_inherited_reads_only :
  forall (s : AppState) (a : Action),
    match read_key a with
    | Some k =>
        if no_inherited_read (tasks s) k
        then reducer_js s a = Normal (reducer s a)
        else tasks s !! k = None
             /\ In k inherited_names
             /\ exists message, reducer_js s a = Throw (TypeError message)
    | None => reducer_js s a = Normal (reducer s a)
    end.
Proof.
  intros s a. destruct (read_key a) as [k|] eqn:Hk.
  - destruct (no_inherited_read (tasks s) k) eqn:H.
    + apply reducer_js_plain. intros k' Hk'. rewrite Hk in Hk'.
      now injection Hk' as <-.
    + split; [|split].
      * unfold no_inherited_read in H.
        destruct (tasks s !! k); [discriminate | reflexivity].
      * unfold no_inherited_read in H.
        destruct (tasks s !! k); [discriminate|].
        apply negb_false_iff in H. unfold inherited_member in H.
        apply existsb_exists in H as (n & Hn & E).
        now apply String.eqb_eq in E as ->.
      * now apply (reducer_js_inherited s a k).
  - apply reducer_js_plain. intros k' Hk'. rewrite Hk in Hk'. discriminate.
Qed.
